(** * The scheduler's evaluation context (scheduler/context.go)

    A shallow embedding of [EvalCache], [EvalContext] and the projection
    [ProposedAllocs], with the parts of package [structs] the projection
    calls, and the properties the specification states about them. *)

From stdpp Require Import base option list gmap strings.

(** ** Go values *)

(** A Go slice value is either [nil] or a (possibly empty) sequence of
    elements.  Capacity and the backing array are not modelled. *)
Inductive slice (A : Type) : Type :=
  | Nil
  | Slice (l : list A).
Arguments Nil {A}.
Arguments Slice {A} l.

#[global] Instance slice_inhabited {A} : Inhabited (slice A) := populate Nil.

Definition elems {A} (s : slice A) : list A :=
  match s with
  | Nil => []
  | Slice l => l
  end.

(** [len(s)] *)
Definition len {A} (s : slice A) : nat := length (elems s).

(** [s == nil] *)
Definition is_nil {A} (s : slice A) : bool :=
  match s with
  | Nil => true
  | Slice _ => false
  end.

(** [make([]T, 0)] *)
Definition make_slice {A} : slice A := Slice [].

(** [append(s, t...)]: appending no element gives [s] back, so a nil
    slice stays nil. *)
Definition append {A} (s t : slice A) : slice A :=
  match elems t with
  | [] => s
  | _ :: _ => Slice (elems s ++ elems t)
  end.

(** Keeps the elements that satisfy [f]; nil stays nil. *)
Definition slice_filter {A} (f : A → bool) (s : slice A) : slice A :=
  match s with
  | Nil => Nil
  | Slice l => Slice (filter (λ x, Is_true (f x)) l)
  end.

(** Go's [error] interface: [None] is the nil error. *)
Definition error : Type := option string.

(** ** Package structs *)

Module structs.

(** Modelled from the spec: the lifecycle status of an allocation, whose
    declaration is not part of the sources at hand (section 3: "Status is
    one of {pending, running, complete, failed, lost}"). *)
Inductive AllocStatus : Type :=
  | pending
  | running
  | complete
  | failed
  | lost.

(** Modelled from the spec: the [Allocation] struct, which is missing from
    the sources (section 3: identity, node identity, job/task reference,
    lifecycle status). *)
Record Allocation : Type := {
  ID : string;
  NodeID : string;
  Task : string;
  Status : AllocStatus;
}.

(** Modelled from the spec: [Allocation.TerminalStatus], missing from the
    sources (glossary: a terminal allocation is "one whose status
    (complete/failed/lost) means it no longer occupies resources"). *)
Definition TerminalStatus (a : Allocation) : bool :=
  match Status a with
  | complete | failed | lost => true
  | pending | running => false
  end.

(** Modelled from the spec: [FilterTerminalAllocs], missing from the
    sources (section 4.5, step 2: "Filter out allocations in a terminal
    status"). *)
Definition FilterTerminalAllocs (allocs : slice Allocation) : slice Allocation :=
  slice_filter (λ a, negb (TerminalStatus a)) allocs.

(** Modelled from the spec: [RemoveAllocs], missing from the sources
    (section 4.5, step 3: "remove exactly those allocation instances (by
    identity, not by task name) from the filtered set"). *)
Definition RemoveAllocs (alloc remove : slice Allocation) : slice Allocation :=
  slice_filter (λ a, negb (bool_decide (ID a ∈ ID <$> elems remove))) alloc.

(** Modelled from the spec: the [Plan] struct, of which the sources only
    show the two fields [ProposedAllocs] reads (section 3: "mapping
    node→allocations-to-evict, mapping node→allocations-to-add"). *)
Record Plan : Type := {
  NodeUpdate : gmap string (slice Allocation);
  NodeAllocation : gmap string (slice Allocation);
}.

(** Modelled from the spec: the Plan's [recordEviction], missing from the
    sources (section 4.3: "marks an existing allocation as scheduled for
    removal on a given node"; the Plan is an "append-only accumulator"). *)
Definition recordEviction (nodeID : string) (a : Allocation) (p : Plan) : Plan :=
  {| NodeUpdate := <[nodeID := append (NodeUpdate p !!! nodeID) (Slice [a])]> (NodeUpdate p);
     NodeAllocation := NodeAllocation p |}.

(** Modelled from the spec: the Plan's [recordPlacement], missing from the
    sources (section 4.3: "appends a new allocation to be created on a
    given node"). *)
Definition recordPlacement (nodeID : string) (a : Allocation) (p : Plan) : Plan :=
  {| NodeUpdate := NodeUpdate p;
     NodeAllocation := <[nodeID := append (NodeAllocation p !!! nodeID) (Slice [a])]> (NodeAllocation p) |}.

(** Modelled from the spec: the [AllocMetric] struct, missing from the
    sources (section 3: "counters and reason strings"; section 4.4: nodes
    considered, nodes rejected by reason tag). *)
Record AllocMetric : Type := {
  NodesConsidered : nat;
  NodesRejected : gmap string nat;
}.

(** [new(AllocMetric)]: every field has its zero value. *)
Definition new_AllocMetric : AllocMetric :=
  {| NodesConsidered := 0; NodesRejected := ∅ |}.

End structs.

Import structs.

(** ** Package scheduler *)

(** Modelled from the spec: the [State] interface, which is declared
    outside the sources at hand (section 6: "allocationsForNode(nodeID) →
    sequence of Allocation, or StateUnavailable").  Only the method the
    context calls is kept; it returns a slice and an error, as line 105
    receives them. *)
Record State : Type := {
  AllocsByNode : string → slice Allocation * error;
}.

(** A Go map value is nil or a reference to a map object. *)
Abbreviation loc := nat (only parsing).

Record EvalCache : Type := {
  reCache : option loc;
  constraintCache : option loc;
}.

(** ** The allocations and state views of the examples *)

Definition alloc_a1 : Allocation :=
  {| ID := "a1"; NodeID := "N"; Task := "web"; Status := running |}.

Definition alloc_a2 : Allocation :=
  {| ID := "a2"; NodeID := "N"; Task := "web"; Status := complete |}.

Definition alloc_a3 : Allocation :=
  {| ID := "a3"; NodeID := "N"; Task := "web"; Status := pending |}.

Definition alloc_b : Allocation :=
  {| ID := "b"; NodeID := "N"; Task := "web"; Status := running |}.

(** Node N holds a1 (running) and a2 (complete); other nodes hold nothing. *)
Definition scenario_state : State :=
  {| AllocsByNode := λ nodeID,
       if decide (nodeID = "N"%string) then (Slice [alloc_a1; alloc_a2], None)
       else (Nil, None) |}.

(** Node N holds the running allocations a1 and b, both of task "web". *)
Definition two_running_state : State :=
  {| AllocsByNode := λ nodeID,
       if decide (nodeID = "N"%string) then (Slice [alloc_a1; alloc_b], None)
       else (Nil, None) |}.

(** A state view whose snapshot cannot be read. *)
Definition failing_state : State :=
  {| AllocsByNode := λ _, (Nil, Some "StateUnavailable"%string) |}.

Definition empty_plan : Plan := {| NodeUpdate := ∅; NodeAllocation := ∅ |}.

Section scheduler.

(** [*regexp.Regexp], [version.Constraints] and [*log.Logger] come from
    other libraries; nothing here looks inside them. *)
Context {Regexp Constraints Logger : Type}.

(** The map objects behind the two caches: [make] adds one at the end,
    and a reference is an index. *)
Record Heap : Type := {
  regexpMaps : list (gmap string Regexp);
  constraintMaps : list (gmap string Constraints);
}.

Record EvalContext : Type := {
  cache : EvalCache;
  state : State;
  plan : Plan;
  logger : Logger;
  metrics : AllocMetric;
}.

(** What a method with receiver [e *EvalContext] can read and write. *)
Record World : Type := {
  ctx : EvalContext;
  heap : Heap;
}.

(** *** A state monad over [World] *)

Definition M (A : Type) : Type := World → A * World.

Definition ret {A} (x : A) : M A := λ w, (x, w).
Definition bind {A B} (m : M A) (k : A → M B) : M B :=
  λ w, let (x, w') := m w in k x w'.
Definition gets {A} (f : World → A) : M A := λ w, (f w, w).
Definition modify (f : World → World) : M unit := λ w, (tt, f w).

Local Notation "'do' x <- m ; k" := (bind m (λ x, k))
  (at level 10, x name, m at level 100, k at level 200).
Local Notation "m ;; k" := (bind m (λ _, k))
  (at level 100, k at level 200, right associativity).

Definition run {A} (m : M A) (w : World) : World := snd (m w).
Definition result {A} (m : M A) (w : World) : A := fst (m w).

(** Field assignments. *)
Definition set_reCache (v : option loc) (w : World) : World :=
  let e := ctx w in
  {| ctx := {| cache := {| reCache := v; constraintCache := constraintCache (cache e) |};
               state := state e; plan := plan e; logger := logger e;
               metrics := metrics e |};
     heap := heap w |}.

Definition set_constraintCache (v : option loc) (w : World) : World :=
  let e := ctx w in
  {| ctx := {| cache := {| reCache := reCache (cache e); constraintCache := v |};
               state := state e; plan := plan e; logger := logger e;
               metrics := metrics e |};
     heap := heap w |}.

Definition set_state (s : State) (w : World) : World :=
  let e := ctx w in
  {| ctx := {| cache := cache e; state := s; plan := plan e; logger := logger e;
               metrics := metrics e |};
     heap := heap w |}.

Definition set_metrics (m : AllocMetric) (w : World) : World :=
  let e := ctx w in
  {| ctx := {| cache := cache e; state := state e; plan := plan e;
               logger := logger e; metrics := m |};
     heap := heap w |}.

Definition set_plan (p : Plan) (w : World) : World :=
  let e := ctx w in
  {| ctx := {| cache := cache e; state := state e; plan := p;
               logger := logger e; metrics := metrics e |};
     heap := heap w |}.

(** [make(map[string]*regexp.Regexp)] and
    [make(map[string]version.Constraints)] *)
Definition make_regexp_map : M (option loc) := λ w,
  let h := heap w in
  (Some (length (regexpMaps h)),
   {| ctx := ctx w;
      heap := {| regexpMaps := regexpMaps h ++ [∅];
                 constraintMaps := constraintMaps h |} |}).

Definition make_constraint_map : M (option loc) := λ w,
  let h := heap w in
  (Some (length (constraintMaps h)),
   {| ctx := ctx w;
      heap := {| regexpMaps := regexpMaps h;
                 constraintMaps := constraintMaps h ++ [∅] |} |}).

(** [m[k]] on a map value: a nil map reads as empty. *)
Definition regexp_at (m : option loc) (k : string) (w : World) : option Regexp :=
  l ← m; o ← regexpMaps (heap w) !! l; o !! k.

Definition constraint_at (m : option loc) (k : string) (w : World) : option Constraints :=
  l ← m; o ← constraintMaps (heap w) !! l; o !! k.

(** [m[k] = v] through a map reference. *)
Definition store_regexp (l : loc) (k : string) (v : Regexp) : M unit :=
  modify (λ w,
    {| ctx := ctx w;
       heap := {| regexpMaps := alter (insert k v) l (regexpMaps (heap w));
                  constraintMaps := constraintMaps (heap w) |} |}).

Definition store_constraint (l : loc) (k : string) (v : Constraints) : M unit :=
  modify (λ w,
    {| ctx := ctx w;
       heap := {| regexpMaps := regexpMaps (heap w);
                  constraintMaps := alter (insert k v) l (constraintMaps (heap w)) |} |}).

(** *** EvalCache *)

Definition RegexpCache : M (option loc) :=
  do c <- gets (λ w, reCache (cache (ctx w)));
  (if c is None
   then do m <- make_regexp_map; modify (set_reCache m)
   else ret tt);;
  gets (λ w, reCache (cache (ctx w))).

Definition ConstraintCache : M (option loc) :=
  do c <- gets (λ w, constraintCache (cache (ctx w)));
  (if c is None
   then do m <- make_constraint_map; modify (set_constraintCache m)
   else ret tt);;
  gets (λ w, constraintCache (cache (ctx w))).

(** *** EvalContext *)

Definition NewEvalContext (s : State) (p : Plan) (log : Logger) : EvalContext :=
  {| cache := {| reCache := None; constraintCache := None |};
     state := s;
     plan := p;
     logger := log;
     metrics := new_AllocMetric |}.

Definition SetState (s : State) : M unit := modify (set_state s).

Definition Reset : M unit := modify (set_metrics new_AllocMetric).

Definition ProposedAllocs (nodeID : string) : M (slice Allocation * error) :=
  do e <- gets ctx;
  (* Get the existing allocations *)
  let '(existingAlloc, err) := AllocsByNode (state e) nodeID in
  if err is Some _ then ret (Nil, err) else
  (* Filter on alloc state *)
  let existingAlloc := FilterTerminalAllocs existingAlloc in
  (* Remove the planned evictions, then add the new allocations *)
  let proposed := existingAlloc in
  let update := NodeUpdate (plan e) !!! nodeID in
  let proposed :=
    if decide (0 < len update) then RemoveAllocs existingAlloc update
    else proposed in
  let proposed := append proposed (NodeAllocation (plan e) !!! nodeID) in
  (* Ensure the return is not nil *)
  let proposed := if is_nil proposed then make_slice else proposed in
  ret (proposed, None).

(** *** Writes made by the callers of the context *)

(** [e.Plan()] hands out the context's plan; a decision recorded through it
    is a write to the plan the context holds. *)
Definition Plan_recordEviction (nodeID : string) (a : Allocation) : M unit :=
  modify (λ w, set_plan (recordEviction nodeID a (plan (ctx w))) w).

Definition Plan_recordPlacement (nodeID : string) (a : Allocation) : M unit :=
  modify (λ w, set_plan (recordPlacement nodeID a (plan (ctx w))) w).

(** One step of a caller working with the context. *)
Inductive call : Type :=
  | CallReset
  | CallSetState (s : State)
  | CallProposedAllocs (nodeID : string)
  | CallRegexpCache
  | CallConstraintCache
  | CallRecordEviction (nodeID : string) (a : Allocation)
  | CallRecordPlacement (nodeID : string) (a : Allocation)
  | CallStoreRegexp (l : loc) (k : string) (v : Regexp)
  | CallStoreConstraint (l : loc) (k : string) (v : Constraints).

Definition perform (c : call) : M unit :=
  match c with
  | CallReset => Reset
  | CallSetState s => SetState s
  | CallProposedAllocs nodeID => ProposedAllocs nodeID;; ret tt
  | CallRegexpCache => RegexpCache;; ret tt
  | CallConstraintCache => ConstraintCache;; ret tt
  | CallRecordEviction nodeID a => Plan_recordEviction nodeID a
  | CallRecordPlacement nodeID a => Plan_recordPlacement nodeID a
  | CallStoreRegexp l k v => store_regexp l k v
  | CallStoreConstraint l k v => store_constraint l k v
  end.

Definition perform_all (cs : list call) (w : World) : World :=
  foldl (λ w c, run (perform c) w) w cs.

(** The world right after [NewEvalContext]: no cache map exists yet. *)
Definition new_world (s : State) (p : Plan) (log : Logger) : World :=
  {| ctx := NewEvalContext s p log;
     heap := {| regexpMaps := []; constraintMaps := [] |} |}.

(** The projection as section 4.5 of the specification words it, on plain
    sequences: drop the terminal allocations (step 2), drop the ones whose
    identity the plan evicts (step 3), put the placements behind (step 4). *)
Definition spec_projection (existing update placed : list Allocation) : list Allocation :=
  filter (λ a, ID a ∉ ID <$> update)
         (filter (λ a, TerminalStatus a = false) existing)
  ++ placed.

(** Two plans that differ only in how they spell "nothing for this node". *)
Definition with_entries (nodeID : string) (u v : slice Allocation) (p : Plan) : Plan :=
  {| NodeUpdate := <[nodeID := u]> (NodeUpdate p);
     NodeAllocation := <[nodeID := v]> (NodeAllocation p) |}.

Definition without_entries (nodeID : string) (p : Plan) : Plan :=
  {| NodeUpdate := delete nodeID (NodeUpdate p);
     NodeAllocation := delete nodeID (NodeAllocation p) |}.

(** A cache field that is set refers to a map that exists. *)
Definition cache_valid (w : World) : Prop :=
  (∀ l, reCache (cache (ctx w)) = Some l → l < length (regexpMaps (heap w))) ∧
  (∀ l, constraintCache (cache (ctx w)) = Some l →
        l < length (constraintMaps (heap w))).

(** The calls that write key [k] of the map at [l]. *)
Definition overwrites_regexp (l : loc) (k : string) (c : call) : Prop :=
  match c with
  | CallStoreRegexp l' k' _ => l' = l ∧ k' = k
  | _ => False
  end.

Definition overwrites_constraint (l : loc) (k : string) (c : call) : Prop :=
  match c with
  | CallStoreConstraint l' k' _ => l' = l ∧ k' = k
  | _ => False
  end.

Create HintDb calls.
#[local] Hint Unfold run result perform Reset SetState ProposedAllocs RegexpCache
  ConstraintCache Plan_recordEviction Plan_recordPlacement store_regexp
  store_constraint make_regexp_map make_constraint_map bind gets ret
  modify : calls.

Ltac unfold_calls := autounfold with calls; simpl.

Ltac case_query w nodeID :=
  destruct (AllocsByNode (state (ctx w)) nodeID) as [? [?|]]; simpl.

(** *** Worlds to try the properties on *)

Definition scenario_world (log : Logger) : World :=
  new_world scenario_state empty_plan log.

Definition two_running_world (log : Logger) : World :=
  new_world two_running_state empty_plan log.

Definition failing_world (log : Logger) : World :=
  new_world failing_state empty_plan log.

(** *** The accessors of EvalContext *)

(** The methods [State], [Plan], [Logger] and [Metrics] of [*EvalContext]
    (lines 79-93); the prefix keeps them apart from the types of the same
    name. *)
Definition EvalContext_State : M State := gets (λ w, state (ctx w)).

Definition EvalContext_Plan : M Plan := gets (λ w, plan (ctx w)).

Definition EvalContext_Logger : M Logger := gets (λ w, logger (ctx w)).

Definition EvalContext_Metrics : M AllocMetric := gets (λ w, metrics (ctx w)).

#[local] Hint Unfold EvalContext_State EvalContext_Plan EvalContext_Logger
  EvalContext_Metrics : calls.

(** The calls that write the plan. *)
Definition records_decision (c : call) : Prop :=
  match c with
  | CallRecordEviction _ _ | CallRecordPlacement _ _ => True
  | _ => False
  end.

(** The calls that can change what the projection of node [n] reads: a
    new state view, or a decision recorded for [n] itself. *)
Definition touches_node (n : string) (c : call) : Prop :=
  match c with
  | CallSetState _ => True
  | CallRecordEviction n' _ | CallRecordPlacement n' _ => n' = n
  | _ => False
  end.

(** The state view in the context after the calls [cs], started with [s]. *)
Definition last_state (cs : list call) (s : State) : State :=
  foldl (λ s c, match c with CallSetState s' => s' | _ => s end) s cs.

(** ** Slices *)

Lemma elems_slice_filter {A} (f : A → bool) (s : slice A) :
  elems (slice_filter f s) = filter (λ x, Is_true (f x)) (elems s).
Proof. by destruct s. Qed.

Lemma elems_append {A} (s t : slice A) : elems (append s t) = elems s ++ elems t.
Proof.
  unfold append. destruct (elems t) as [|x l] eqn:Ht; simpl; [|done].
  by rewrite app_nil_r.
Qed.

Lemma nil_guard {A} (s : slice A) :
  (if is_nil s then make_slice else s) = Slice (elems s).
Proof. by destruct s. Qed.

Lemma len_zero_elems {A} (s : slice A) : ¬ 0 < len s → elems s = [].
Proof. unfold len. destruct (elems s); simpl; [done | lia]. Qed.

(** ** The helpers of package structs, on plain sequences *)

Lemma elems_FilterTerminalAllocs (s : slice Allocation) :
  elems (FilterTerminalAllocs s) = filter (λ a, TerminalStatus a = false) (elems s).
Proof.
  unfold FilterTerminalAllocs. rewrite elems_slice_filter.
  apply list_filter_iff. intros a. by destruct (TerminalStatus a).
Qed.

Lemma elems_RemoveAllocs (s r : slice Allocation) :
  elems (RemoveAllocs s r) = filter (λ a, ID a ∉ ID <$> elems r) (elems s).
Proof.
  unfold RemoveAllocs. rewrite elems_slice_filter.
  apply list_filter_iff. intros a. rewrite negb_True, bool_decide_spec. done.
Qed.

Lemma filter_not_evicted_nil (l : list Allocation) :
  filter (λ a, ID a ∉ ID <$> []) l = l.
Proof.
  induction l as [|a l IH]; [done|].
  rewrite filter_cons_True; [by rewrite IH | simpl; apply not_elem_of_nil].
Qed.

(** ** ProposedAllocs *)

(** The projection never writes: whatever the state view answers, the world
    after the call is the world before it. *)
Lemma ProposedAllocs_run (nodeID : string) (w : World) :
  run (ProposedAllocs nodeID) w = w.
Proof.
  unfold run, ProposedAllocs, bind, gets, ret. simpl.
  destruct (AllocsByNode (state (ctx w)) nodeID) as [s [msg|]]; done.
Qed.

Lemma ProposedAllocs_failure (nodeID : string) (w : World) s msg :
  AllocsByNode (state (ctx w)) nodeID = (s, Some msg) →
  result (ProposedAllocs nodeID) w = (Nil, Some msg).
Proof.
  intros Hq. unfold result, ProposedAllocs, bind, gets, ret. simpl.
  by rewrite Hq.
Qed.

(** On a successful query the code computes the projection of section 4.5,
    and hands it out as a slice that is not nil. *)
Lemma ProposedAllocs_success (nodeID : string) (w : World) s :
  AllocsByNode (state (ctx w)) nodeID = (s, None) →
  result (ProposedAllocs nodeID) w =
    (Slice (spec_projection (elems s)
              (elems (NodeUpdate (plan (ctx w)) !!! nodeID))
              (elems (NodeAllocation (plan (ctx w)) !!! nodeID))),
     None).
Proof.
  intros Hq. unfold result, ProposedAllocs, bind, gets, ret. simpl.
  rewrite Hq. simpl. rewrite nil_guard, elems_append. unfold spec_projection.
  do 3 f_equal. case_decide as Hlen.
  - by rewrite elems_RemoveAllocs, elems_FilterTerminalAllocs.
  - rewrite (len_zero_elems _ Hlen), filter_not_evicted_nil.
    apply elems_FilterTerminalAllocs.
Qed.

(** A node the plan says nothing about reads as two nil slices. *)
Lemma lookup_total_absent (m : gmap string (slice Allocation)) (k : string) :
  m !! k = None → m !!! k = Nil.
Proof. intros H. by rewrite lookup_total_alt, H. Qed.

(** What the two recording operations leave in the plan of the world. *)
Lemma plan_after_eviction (nodeID : string) (a : Allocation) (w : World) :
  plan (ctx (run (Plan_recordEviction nodeID a) w)) =
  recordEviction nodeID a (plan (ctx w)).
Proof. done. Qed.

Lemma plan_after_placement (nodeID : string) (a : Allocation) (w : World) :
  plan (ctx (run (Plan_recordPlacement nodeID a) w)) =
  recordPlacement nodeID a (plan (ctx w)).
Proof. done. Qed.

Lemma state_after_eviction (nodeID : string) (a : Allocation) (w : World) :
  state (ctx (run (Plan_recordEviction nodeID a) w)) = state (ctx w).
Proof. done. Qed.

Lemma state_after_placement (nodeID : string) (a : Allocation) (w : World) :
  state (ctx (run (Plan_recordPlacement nodeID a) w)) = state (ctx w).
Proof. done. Qed.

Lemma evictions_after_recordEviction (n n' : string) (a : Allocation) (p : Plan) :
  elems (NodeUpdate (recordEviction n a p) !!! n') =
  if decide (n = n') then elems (NodeUpdate p !!! n) ++ [a]
  else elems (NodeUpdate p !!! n').
Proof.
  unfold recordEviction. simpl. case_decide as Hn.
  - subst n'. by rewrite lookup_total_insert_eq, elems_append.
  - by rewrite lookup_total_insert_ne.
Qed.

Lemma placements_after_recordPlacement (n n' : string) (a : Allocation) (p : Plan) :
  elems (NodeAllocation (recordPlacement n a p) !!! n') =
  if decide (n = n') then elems (NodeAllocation p !!! n) ++ [a]
  else elems (NodeAllocation p !!! n').
Proof.
  unfold recordPlacement. simpl. case_decide as Hn.
  - subst n'. by rewrite lookup_total_insert_eq, elems_append.
  - by rewrite lookup_total_insert_ne.
Qed.

Lemma placements_after_recordEviction (n : string) (a : Allocation) (p : Plan) :
  NodeAllocation (recordEviction n a p) = NodeAllocation p.
Proof. done. Qed.

Lemma evictions_after_recordPlacement (n : string) (a : Allocation) (p : Plan) :
  NodeUpdate (recordPlacement n a p) = NodeUpdate p.
Proof. done. Qed.

Lemma running_not_terminal (a : Allocation) :
  Status a = running → TerminalStatus a = false.
Proof. unfold TerminalStatus. by intros ->. Qed.

Lemma complete_terminal (a : Allocation) :
  Status a = complete → TerminalStatus a = true.
Proof. unfold TerminalStatus. by intros ->. Qed.

(** C1. The scenario of section 8: a node N holds a running allocation a1
    and a complete allocation a2, and the plan has no entry for N.  The
    projection of N is [a1]; once the placement of a3 is recorded it is
    [a1, a3]; once the eviction of a1 is recorded as well it is [a3]. *)
Theorem scenario_projection (N : string) (a1 a2 a3 : Allocation) (w : World) :
  Status a1 = running →
  Status a2 = complete →
  AllocsByNode (state (ctx w)) N = (Slice [a1; a2], None) →
  NodeUpdate (plan (ctx w)) !! N = None →
  NodeAllocation (plan (ctx w)) !! N = None →
  let w1 := run (Plan_recordPlacement N a3) (run (ProposedAllocs N) w) in
  let w2 := run (Plan_recordEviction N a1) (run (ProposedAllocs N) w1) in
  result (ProposedAllocs N) w = (Slice [a1], None) ∧
  result (ProposedAllocs N) w1 = (Slice [a1; a3], None) ∧
  result (ProposedAllocs N) w2 = (Slice [a3], None).
Proof.
  intros Hrun Hdone Hq Hup Hadd w1 w2. subst w1 w2.
  rewrite !ProposedAllocs_run.
  apply running_not_terminal in Hrun. apply complete_terminal in Hdone.
  apply lookup_total_absent in Hup, Hadd.
  assert (Hkeep : filter (λ a, TerminalStatus a = false) [a1; a2] = [a1]).
  { rewrite filter_cons_True by done. rewrite filter_cons_False by congruence. done. }
  repeat split.
  - rewrite (ProposedAllocs_success _ _ _ Hq), Hup, Hadd.
    unfold spec_projection. simpl elems.
    by rewrite Hkeep, filter_not_evicted_nil.
  - erewrite ProposedAllocs_success by (rewrite state_after_placement; exact Hq).
    rewrite plan_after_placement, placements_after_recordPlacement.
    rewrite decide_True by done.
    rewrite evictions_after_recordPlacement, Hup, Hadd.
    unfold spec_projection. simpl elems.
    by rewrite Hkeep, filter_not_evicted_nil.
  - erewrite ProposedAllocs_success
      by (rewrite state_after_eviction, state_after_placement; exact Hq).
    rewrite plan_after_eviction, evictions_after_recordEviction.
    rewrite decide_True by done. rewrite placements_after_recordEviction.
    rewrite plan_after_placement, placements_after_recordPlacement.
    rewrite decide_True by done.
    rewrite evictions_after_recordPlacement, Hup, Hadd.
    unfold spec_projection. simpl elems. rewrite Hkeep.
    rewrite filter_cons_False; [done|].
    simpl. intros Hn. apply Hn. apply list_elem_of_here.
Qed.

(** C3. When the state view's query for the node fails, the projection
    hands that very error to its caller, together with a nil slice: no
    sequence, empty or not, comes back as a success. *)
Theorem ProposedAllocs_returns_state_error (nodeID : string) (w : World)
    (s : slice Allocation) (msg : string) :
  AllocsByNode (state (ctx w)) nodeID = (s, Some msg) →
  result (ProposedAllocs nodeID) w = (Nil, Some msg).
Proof. apply ProposedAllocs_failure. Qed.

(** C4. When the state view's query succeeds the projection returns a slice
    that is not nil; for a node without allocations and without plan
    entries it is the empty, present slice. *)
Theorem ProposedAllocs_never_nil (nodeID : string) (w : World) (s : slice Allocation) :
  AllocsByNode (state (ctx w)) nodeID = (s, None) →
  (∃ l, result (ProposedAllocs nodeID) w = (Slice l, None)) ∧
  is_nil (fst (result (ProposedAllocs nodeID) w)) = false ∧
  (elems s = [] →
   NodeUpdate (plan (ctx w)) !! nodeID = None →
   NodeAllocation (plan (ctx w)) !! nodeID = None →
   result (ProposedAllocs nodeID) w = (Slice [], None)).
Proof.
  intros Hq. rewrite (ProposedAllocs_success _ _ _ Hq). split; [eauto|].
  split; [done|]. intros Hs Hup Hadd.
  apply lookup_total_absent in Hup, Hadd.
  by rewrite Hs, Hup, Hadd.
Qed.

(** C10. The projection only reads the evaluation context: after the call,
    failed or not, the world (the plan's two maps, the metrics, the cache
    fields and the cache maps) is what it was.  A plan with an empty entry
    for the node (nil or of length 0, in either map) is projected as the
    plan without an entry for it. *)
Theorem ProposedAllocs_read_only (nodeID : string) (w : World) :
  run (ProposedAllocs nodeID) w = w ∧
  ∀ u v : slice Allocation, elems u = [] → elems v = [] →
    result (ProposedAllocs nodeID)
      (set_plan (with_entries nodeID u v (plan (ctx w))) w) =
    result (ProposedAllocs nodeID)
      (set_plan (without_entries nodeID (plan (ctx w))) w).
Proof.
  split; [apply ProposedAllocs_run|]. intros u v Hu Hv.
  destruct (AllocsByNode (state (ctx w)) nodeID) as [s [msg|]] eqn:Hq.
  - by rewrite !(ProposedAllocs_failure _ _ s msg).
  - rewrite !(ProposedAllocs_success _ _ s) by done. simpl.
    rewrite !lookup_total_insert_eq, Hu, Hv.
    by rewrite !lookup_total_delete_eq.
Qed.

(** The projection looks at the evictions only through their identities. *)
Lemma spec_projection_same_ids (existing u u' placed : list Allocation) :
  (∀ i, i ∈ ID <$> u ↔ i ∈ ID <$> u') →
  spec_projection existing u placed = spec_projection existing u' placed.
Proof.
  intros Hids. unfold spec_projection. f_equal.
  apply list_filter_iff. intros a. by rewrite Hids.
Qed.

Lemma elem_of_spec_projection (existing u placed : list Allocation) (a : Allocation) :
  a ∈ spec_projection existing u placed ↔
  (a ∈ existing ∧ TerminalStatus a = false ∧ ID a ∉ ID <$> u) ∨ a ∈ placed.
Proof.
  unfold spec_projection.
  rewrite elem_of_app, !list_elem_of_filter. tauto.
Qed.

(** C2, as the code has it.  A terminal allocation is in the projection of
    a node only when the plan records it as a placement for that node:
    terminal allocations of the state view never get through, whatever the
    plan evicts, and placements are added as they are. *)
Theorem terminal_only_when_placed (nodeID : string) (w : World) (a : Allocation) :
  TerminalStatus a = true →
  a ∈ elems (fst (result (ProposedAllocs nodeID) w)) →
  a ∈ elems (NodeAllocation (plan (ctx w)) !!! nodeID).
Proof.
  intros Hterm.
  destruct (AllocsByNode (state (ctx w)) nodeID) as [s [msg|]] eqn:Hq.
  - rewrite (ProposedAllocs_failure _ _ _ _ Hq). simpl. by intros ?%elem_of_nil.
  - rewrite (ProposedAllocs_success _ _ _ Hq). simpl.
    rewrite elem_of_spec_projection. intros [(_ & Hlive & _)|Hin]; [congruence|done].
Qed.

(** C7. On a successful query the projection is the terminal-filtered
    existing allocations minus exactly those whose identity the plan evicts
    for the node, followed by the placements.  So an existing, non-terminal
    allocation whose identity is not evicted stays, whatever task it
    belongs to and whatever else is evicted; and an allocation whose
    identity is evicted is only there when it is also placed. *)
Theorem eviction_by_identity (nodeID : string) (w : World) (s : slice Allocation) :
  AllocsByNode (state (ctx w)) nodeID = (s, None) →
  let evicted := elems (NodeUpdate (plan (ctx w)) !!! nodeID) in
  let placed := elems (NodeAllocation (plan (ctx w)) !!! nodeID) in
  let r := elems (fst (result (ProposedAllocs nodeID) w)) in
  r = filter (λ a, ID a ∉ ID <$> evicted)
        (filter (λ a, TerminalStatus a = false) (elems s)) ++ placed ∧
  (∀ a b, a ∈ elems s → TerminalStatus a = false → b ∈ evicted →
          Task a = Task b → ID a ∉ ID <$> evicted → a ∈ r) ∧
  (∀ a, a ∈ elems s → TerminalStatus a = false →
        ID a ∉ ID <$> evicted → a ∈ r) ∧
  (∀ a, ID a ∈ ID <$> evicted → a ∈ r → a ∈ placed).
Proof.
  intros Hq evicted placed r. subst r.
  rewrite (ProposedAllocs_success _ _ _ Hq). simpl. fold evicted placed.
  split; [done|].
  split; [|split].
  - intros a b Hin Hlive _ _ Hid. apply elem_of_spec_projection. auto.
  - intros a Hin Hlive Hid. apply elem_of_spec_projection. auto.
  - intros a Hid. rewrite elem_of_spec_projection.
    intros [(_ & _ & Hno)|Hin]; [by destruct Hno|done].
Qed.

(** C8. Recording an eviction a second time changes no projection: for
    every node, the result after two recordings of the same eviction is the
    result after one. *)
Theorem eviction_recorded_twice (n nodeID : string) (a : Allocation) (w : World) :
  result (ProposedAllocs nodeID)
    (run (Plan_recordEviction n a) (run (Plan_recordEviction n a) w)) =
  result (ProposedAllocs nodeID) (run (Plan_recordEviction n a) w).
Proof.
  destruct (AllocsByNode (state (ctx w)) nodeID) as [s [msg|]] eqn:Hq.
  - by rewrite !(ProposedAllocs_failure _ _ s msg).
  - rewrite !(ProposedAllocs_success _ _ s) by done.
    rewrite !plan_after_eviction, !placements_after_recordEviction.
    do 2 f_equal. apply spec_projection_same_ids. intros i.
    rewrite !evictions_after_recordEviction.
    destruct (decide (n = nodeID)) as [->|Hn]; [|done].
    rewrite decide_True by done.
    rewrite !fmap_app, !elem_of_app. tauto.
Qed.

(** C5. A node holds exactly the non-terminal allocations A and B, and the
    plan has nothing for it yet.  Once the eviction of A and the placement
    of C are recorded, the projection holds B and C, each once, and nothing
    else.  C is there even when it carries the identity of A, since the
    evictions are taken out before the placements are put in. *)
Theorem evict_then_place (n : string) (A B C : Allocation) (w : World)
    (s : slice Allocation) :
  AllocsByNode (state (ctx w)) n = (s, None) →
  elems s ≡ₚ [A; B] →
  TerminalStatus A = false →
  TerminalStatus B = false →
  ID A ≠ ID B →
  elems (NodeUpdate (plan (ctx w)) !!! n) = [] →
  elems (NodeAllocation (plan (ctx w)) !!! n) = [] →
  let w' := run (Plan_recordPlacement n C) (run (Plan_recordEviction n A) w) in
  ∃ r, result (ProposedAllocs n) w' = (Slice r, None) ∧
       r ≡ₚ [B; C] ∧
       ∀ x, x ∈ r ↔ x = B ∨ x = C.
Proof.
  intros Hq Hperm HA HB Hid Hup Hadd w'. subst w'.
  erewrite ProposedAllocs_success
    by (rewrite state_after_placement, state_after_eviction; exact Hq).
  rewrite plan_after_placement, placements_after_recordPlacement.
  rewrite decide_True by done.
  rewrite evictions_after_recordPlacement.
  rewrite plan_after_eviction, placements_after_recordEviction.
  rewrite evictions_after_recordEviction, decide_True by done.
  rewrite Hup, Hadd. simpl.
  assert (Hr : spec_projection (elems s) [A] [C] ≡ₚ [B; C]).
  { unfold spec_projection. rewrite Hperm.
    rewrite (filter_cons_True _ A), (filter_cons_True _ B) by done.
    rewrite filter_cons_False by (simpl; intros Hn; apply Hn; apply list_elem_of_here).
    rewrite filter_cons_True; [done|].
    simpl. rewrite list_elem_of_singleton. congruence. }
  eexists. split; [done|]. split; [done|].
  intros x. rewrite Hr. rewrite elem_of_cons, list_elem_of_singleton. done.
Qed.

(** ** Reset *)

(** C6. Reset puts a fresh, empty metrics accumulator in the context and
    changes nothing else: the plan, the state view, the cache fields and
    the cache maps are as before.  So every projection is what it was, a
    placement recorded before Reset is in the projection made after it, and
    every cached object is still found. *)
Theorem Reset_only_metrics (w : World) :
  let w' := run Reset w in
  metrics (ctx w') = new_AllocMetric ∧
  NodesConsidered (metrics (ctx w')) = 0 ∧
  plan (ctx w') = plan (ctx w) ∧
  cache (ctx w') = cache (ctx w) ∧
  heap w' = heap w ∧
  state (ctx w') = state (ctx w) ∧
  (∀ nodeID, result (ProposedAllocs nodeID) w' = result (ProposedAllocs nodeID) w) ∧
  (∀ nodeID a s,
     AllocsByNode (state (ctx w)) nodeID = (s, None) →
     a ∈ elems (fst (result (ProposedAllocs nodeID)
                       (run Reset (run (Plan_recordPlacement nodeID a) w))))) ∧
  (∀ m k, regexp_at m k w' = regexp_at m k w ∧
          constraint_at m k w' = constraint_at m k w) ∧
  result RegexpCache w' = result RegexpCache w ∧
  result ConstraintCache w' = result ConstraintCache w.
Proof.
  intros w'. subst w'. repeat split.
  - intros nodeID.
    destruct (AllocsByNode (state (ctx w)) nodeID) as [s [msg|]] eqn:Hq.
    + by rewrite !(ProposedAllocs_failure _ _ s msg).
    + by rewrite !(ProposedAllocs_success _ _ s).
  - intros nodeID a s Hq.
    rewrite (ProposedAllocs_success _ _ s) by done. simpl fst. simpl elems.
    apply elem_of_spec_projection. right.
    change (a ∈ elems (NodeAllocation
                         (recordPlacement nodeID a (plan (ctx w))) !!! nodeID)).
    rewrite placements_after_recordPlacement, decide_True by done.
    apply elem_of_app. right. apply list_elem_of_here.
  - unfold result, RegexpCache, bind, gets, ret, modify. simpl.
    by destruct (reCache (cache (ctx w))).
  - unfold result, ConstraintCache, bind, gets, ret, modify. simpl.
    by destruct (constraintCache (cache (ctx w))).
Qed.

(** ** EvalCache *)

Lemma RegexpCache_set (w : World) (l : loc) :
  reCache (cache (ctx w)) = Some l →
  RegexpCache w = (Some l, w).
Proof. intros H. unfold_calls. rewrite H. simpl. by rewrite H. Qed.

Lemma RegexpCache_unset (w : World) :
  reCache (cache (ctx w)) = None →
  result RegexpCache w = Some (length (regexpMaps (heap w))) ∧
  reCache (cache (ctx (run RegexpCache w))) = Some (length (regexpMaps (heap w))) ∧
  regexpMaps (heap (run RegexpCache w)) = regexpMaps (heap w) ++ [∅].
Proof. intros H. unfold_calls. by rewrite H. Qed.

Lemma ConstraintCache_set (w : World) (l : loc) :
  constraintCache (cache (ctx w)) = Some l →
  ConstraintCache w = (Some l, w).
Proof. intros H. unfold_calls. rewrite H. simpl. by rewrite H. Qed.

Lemma ConstraintCache_unset (w : World) :
  constraintCache (cache (ctx w)) = None →
  result ConstraintCache w = Some (length (constraintMaps (heap w))) ∧
  constraintCache (cache (ctx (run ConstraintCache w))) =
    Some (length (constraintMaps (heap w))) ∧
  constraintMaps (heap (run ConstraintCache w)) = constraintMaps (heap w) ++ [∅].
Proof. intros H. unfold_calls. by rewrite H. Qed.

(** Nothing a caller does unsets or redirects a cache field. *)
Lemma perform_keeps_reCache (c : call) (w : World) (l : loc) :
  reCache (cache (ctx w)) = Some l →
  reCache (cache (ctx (run (perform c) w))) = Some l.
Proof.
  intros H. destruct c; unfold_calls; try done.
  - by case_query w nodeID.
  - by rewrite H.
  - by destruct (constraintCache (cache (ctx w))).
Qed.

Lemma perform_keeps_constraintCache (c : call) (w : World) (l : loc) :
  constraintCache (cache (ctx w)) = Some l →
  constraintCache (cache (ctx (run (perform c) w))) = Some l.
Proof.
  intros H. destruct c; unfold_calls; try done.
  - by case_query w nodeID.
  - by destruct (reCache (cache (ctx w))).
  - by rewrite H.
Qed.

(** An entry stays where it is until a caller writes its key again. *)
Lemma perform_keeps_regexp (c : call) (w : World) (l : loc) (k : string) (v : Regexp) :
  ¬ overwrites_regexp l k c →
  regexp_at (Some l) k w = Some v →
  regexp_at (Some l) k (run (perform c) w) = Some v.
Proof.
  unfold regexp_at. simpl. intros Hc Hv.
  destruct (regexpMaps (heap w) !! l) as [o|] eqn:Ho; [|done]. simpl in Hv.
  destruct c; unfold_calls; try (by rewrite Ho).
  - case_query w nodeID; by rewrite Ho.
  - destruct (reCache (cache (ctx w))); simpl; [by rewrite Ho|].
    by rewrite (lookup_app_l_Some _ _ _ _ Ho).
  - destruct (constraintCache (cache (ctx w))); simpl; by rewrite Ho.
  - destruct (decide (l0 = l)) as [->|Hl].
    + rewrite list_lookup_alter_eq, Ho. simpl.
      rewrite lookup_insert_ne; [done|]. intros ->. by apply Hc.
    + by rewrite list_lookup_alter_ne, Ho.
Qed.

Lemma perform_keeps_constraint (c : call) (w : World) (l : loc) (k : string)
    (v : Constraints) :
  ¬ overwrites_constraint l k c →
  constraint_at (Some l) k w = Some v →
  constraint_at (Some l) k (run (perform c) w) = Some v.
Proof.
  unfold constraint_at. simpl. intros Hc Hv.
  destruct (constraintMaps (heap w) !! l) as [o|] eqn:Ho; [|done]. simpl in Hv.
  destruct c; unfold_calls; try (by rewrite Ho).
  - case_query w nodeID; by rewrite Ho.
  - destruct (reCache (cache (ctx w))); simpl; by rewrite Ho.
  - destruct (constraintCache (cache (ctx w))); simpl; [by rewrite Ho|].
    by rewrite (lookup_app_l_Some _ _ _ _ Ho).
  - destruct (decide (l0 = l)) as [->|Hl].
    + rewrite list_lookup_alter_eq, Ho. simpl.
      rewrite lookup_insert_ne; [done|]. intros ->. by apply Hc.
    + by rewrite list_lookup_alter_ne, Ho.
Qed.

Lemma perform_all_keeps_reCache (cs : list call) (w : World) (l : loc) :
  reCache (cache (ctx w)) = Some l →
  reCache (cache (ctx (perform_all cs w))) = Some l.
Proof.
  revert w. induction cs as [|c cs IH]; intros w H; [done|].
  apply IH. by apply perform_keeps_reCache.
Qed.

Lemma perform_all_keeps_constraintCache (cs : list call) (w : World) (l : loc) :
  constraintCache (cache (ctx w)) = Some l →
  constraintCache (cache (ctx (perform_all cs w))) = Some l.
Proof.
  revert w. induction cs as [|c cs IH]; intros w H; [done|].
  apply IH. by apply perform_keeps_constraintCache.
Qed.

Lemma perform_all_keeps_regexp (cs : list call) (w : World) (l : loc)
    (k : string) (v : Regexp) :
  Forall (λ c, ¬ overwrites_regexp l k c) cs →
  regexp_at (Some l) k w = Some v →
  regexp_at (Some l) k (perform_all cs w) = Some v.
Proof.
  intros Hcs. revert w. induction Hcs as [|c cs Hc _ IH]; intros w H; [done|].
  apply IH. by apply perform_keeps_regexp.
Qed.

Lemma perform_all_keeps_constraint (cs : list call) (w : World) (l : loc)
    (k : string) (v : Constraints) :
  Forall (λ c, ¬ overwrites_constraint l k c) cs →
  constraint_at (Some l) k w = Some v →
  constraint_at (Some l) k (perform_all cs w) = Some v.
Proof.
  intros Hcs. revert w. induction Hcs as [|c cs Hc _ IH]; intros w H; [done|].
  apply IH. by apply perform_keeps_constraint.
Qed.

(** The first call makes the map, every call returns the one in the field. *)
Lemma RegexpCache_returns (w : World) :
  ∃ l, result RegexpCache w = Some l ∧
       reCache (cache (ctx (run RegexpCache w))) = Some l ∧
       (reCache (cache (ctx w)) = None →
        regexpMaps (heap w) !! l = None ∧
        regexpMaps (heap (run RegexpCache w)) !! l = Some ∅) ∧
       (cache_valid w → is_Some (regexpMaps (heap (run RegexpCache w)) !! l)).
Proof.
  destruct (reCache (cache (ctx w))) as [l|] eqn:Hc.
  - exists l. unfold result, run. rewrite (RegexpCache_set _ _ Hc). simpl.
    repeat split; [done..|]. intros [Hre _]. by apply lookup_lt_is_Some_2, Hre.
  - destruct (RegexpCache_unset _ Hc) as (Hr & Hf & Hh).
    exists (length (regexpMaps (heap w))). rewrite Hh.
    assert (Hnew : (regexpMaps (heap w) ++ [∅]) !! length (regexpMaps (heap w))
                   = Some (∅ : gmap string Regexp))
      by by rewrite lookup_app_r, Nat.sub_diag.
    repeat split; [done..| |done|by rewrite Hnew].
    by apply lookup_ge_None_2.
Qed.

Lemma ConstraintCache_returns (w : World) :
  ∃ l, result ConstraintCache w = Some l ∧
       constraintCache (cache (ctx (run ConstraintCache w))) = Some l ∧
       (constraintCache (cache (ctx w)) = None →
        constraintMaps (heap w) !! l = None ∧
        constraintMaps (heap (run ConstraintCache w)) !! l = Some ∅) ∧
       (cache_valid w → is_Some (constraintMaps (heap (run ConstraintCache w)) !! l)).
Proof.
  destruct (constraintCache (cache (ctx w))) as [l|] eqn:Hc.
  - exists l. unfold result, run. rewrite (ConstraintCache_set _ _ Hc). simpl.
    repeat split; [done..|]. intros [_ Hcon]. by apply lookup_lt_is_Some_2, Hcon.
  - destruct (ConstraintCache_unset _ Hc) as (Hr & Hf & Hh).
    exists (length (constraintMaps (heap w))). rewrite Hh.
    assert (Hnew : (constraintMaps (heap w) ++ [∅]) !! length (constraintMaps (heap w))
                   = Some (∅ : gmap string Constraints))
      by by rewrite lookup_app_r, Nat.sub_diag.
    repeat split; [done..| |done|by rewrite Hnew].
    by apply lookup_ge_None_2.
Qed.

Lemma regexp_at_store (w : World) (l : loc) (k : string) (v : Regexp) :
  is_Some (regexpMaps (heap w) !! l) →
  regexp_at (Some l) k (run (store_regexp l k v) w) = Some v.
Proof.
  intros [o Ho]. unfold regexp_at. unfold_calls.
  rewrite list_lookup_alter_eq, Ho. simpl. apply lookup_insert_eq.
Qed.

Lemma constraint_at_store (w : World) (l : loc) (k : string) (v : Constraints) :
  is_Some (constraintMaps (heap w) !! l) →
  constraint_at (Some l) k (run (store_constraint l k v) w) = Some v.
Proof.
  intros [o Ho]. unfold constraint_at. unfold_calls.
  rewrite list_lookup_alter_eq, Ho. simpl. apply lookup_insert_eq.
Qed.

(** The validity of the cache fields is no restriction on the worlds a
    caller can reach: it holds after [NewEvalContext] and every call keeps
    it. *)
Lemma cache_valid_new_world (s : State) (p : Plan) (log : Logger) :
  cache_valid (new_world s p log).
Proof. by split. Qed.

Lemma perform_keeps_valid (c : call) (w : World) :
  cache_valid w → cache_valid (run (perform c) w).
Proof.
  intros Hv. pose proof Hv as [Hre Hcon]. destruct c; unfold_calls; try done.
  - by case_query w nodeID.
  - destruct (reCache (cache (ctx w))) as [l|] eqn:Hc; simpl; [done|].
    split; simpl; [|done]. intros l [= <-]. rewrite length_app. simpl. lia.
  - destruct (constraintCache (cache (ctx w))) as [l|] eqn:Hc; simpl; [done|].
    split; simpl; [done|]. intros l [= <-]. rewrite length_app. simpl. lia.
  - split; simpl; [|done]. intros l' Hl'. rewrite length_alter. auto.
  - split; simpl; [done|]. intros l' Hl'. rewrite length_alter. auto.
Qed.

Lemma perform_all_keeps_valid (cs : list call) (w : World) :
  cache_valid w → cache_valid (perform_all cs w).
Proof.
  revert w. induction cs as [|c cs IH]; intros w H; [done|].
  apply IH. by apply perform_keeps_valid.
Qed.

Lemma reachable_valid (s : State) (p : Plan) (log : Logger) (cs : list call) :
  cache_valid (perform_all cs (new_world s p log)).
Proof. apply perform_all_keeps_valid, cache_valid_new_world. Qed.

(** C9. RegexpCache and ConstraintCache never return a nil map.  A call
    that finds the field unset makes a new, empty map and keeps it in the
    field; whatever the caller does afterwards, every later call returns
    that same map and changes nothing.  In a world whose cache fields refer
    to existing maps (every world a caller reaches from [NewEvalContext]),
    an entry stored through the map is read back through the map a later
    call returns, as long as no one has stored that key again. *)
Theorem cache_maps_made_once (w : World) :
  (∃ l, result RegexpCache w = Some l ∧
        (reCache (cache (ctx w)) = None →
         regexpMaps (heap w) !! l = None ∧
         regexpMaps (heap (run RegexpCache w)) !! l = Some ∅) ∧
        (∀ cs, let w' := perform_all cs (run RegexpCache w) in
               RegexpCache w' = (Some l, w')) ∧
        (cache_valid w →
         ∀ k v cs,
           Forall (λ c, ¬ overwrites_regexp l k c) cs →
           let w' := perform_all cs (run (store_regexp l k v) (run RegexpCache w)) in
           regexp_at (result RegexpCache w') k (run RegexpCache w') = Some v)) ∧
  (∃ l, result ConstraintCache w = Some l ∧
        (constraintCache (cache (ctx w)) = None →
         constraintMaps (heap w) !! l = None ∧
         constraintMaps (heap (run ConstraintCache w)) !! l = Some ∅) ∧
        (∀ cs, let w' := perform_all cs (run ConstraintCache w) in
               ConstraintCache w' = (Some l, w')) ∧
        (cache_valid w →
         ∀ k v cs,
           Forall (λ c, ¬ overwrites_constraint l k c) cs →
           let w' := perform_all cs
                       (run (store_constraint l k v) (run ConstraintCache w)) in
           constraint_at (result ConstraintCache w') k (run ConstraintCache w')
           = Some v)).
Proof.
  split.
  - destruct (RegexpCache_returns w) as (l & Hr & Hf & Hnew & Ho).
    exists l. split; [done|]. split; [done|]. split.
    + intros cs w'. by apply RegexpCache_set, perform_all_keeps_reCache.
    + intros Hv k v cs Hcs w'.
      assert (Hc : reCache (cache (ctx w')) = Some l)
        by by apply perform_all_keeps_reCache.
      unfold result, run. rewrite (RegexpCache_set _ _ Hc). simpl.
      apply perform_all_keeps_regexp; [done|]. apply regexp_at_store. auto.
  - destruct (ConstraintCache_returns w) as (l & Hr & Hf & Hnew & Ho).
    exists l. split; [done|]. split; [done|]. split.
    + intros cs w'. by apply ConstraintCache_set, perform_all_keeps_constraintCache.
    + intros Hv k v cs Hcs w'.
      assert (Hc : constraintCache (cache (ctx w')) = Some l)
        by by apply perform_all_keeps_constraintCache.
      unfold result, run. rewrite (ConstraintCache_set _ _ Hc). simpl.
      apply perform_all_keeps_constraint; [done|]. apply constraint_at_store. auto.
Qed.

(** ** What the projection reads *)

(** X1. The projection of a node reads three things only: the answer of
    the state view for that node and the plan's two entries for that node.
    Two worlds that agree on these give the same result, whatever else
    differs (other nodes' entries, metrics, caches, logger). *)
Theorem projection_reads_node_entries (nodeID : string) (w w' : World) :
  AllocsByNode (state (ctx w)) nodeID = AllocsByNode (state (ctx w')) nodeID →
  NodeUpdate (plan (ctx w)) !!! nodeID = NodeUpdate (plan (ctx w')) !!! nodeID →
  NodeAllocation (plan (ctx w)) !!! nodeID =
    NodeAllocation (plan (ctx w')) !!! nodeID →
  result (ProposedAllocs nodeID) w = result (ProposedAllocs nodeID) w'.
Proof.
  intros Hq Hup Hadd. unfold result, ProposedAllocs, bind, gets, ret. simpl.
  rewrite Hq, Hup, Hadd.
  by destruct (AllocsByNode (state (ctx w')) nodeID) as [x [msg|]].
Qed.

(** X2. Placements come last and in order.  When the query succeeds in
    two worlds that agree on the state view's answer and on the evictions
    of the node, and the second has the placements of the first followed
    by some more, then the second projection is the first one followed by
    those. *)
Theorem more_placements_extend_projection (nodeID : string) (w w' : World)
    (s : slice Allocation) (more : list Allocation) :
  AllocsByNode (state (ctx w)) nodeID = (s, None) →
  AllocsByNode (state (ctx w')) nodeID = (s, None) →
  NodeUpdate (plan (ctx w)) !!! nodeID = NodeUpdate (plan (ctx w')) !!! nodeID →
  elems (NodeAllocation (plan (ctx w')) !!! nodeID) =
    elems (NodeAllocation (plan (ctx w)) !!! nodeID) ++ more →
  elems (fst (result (ProposedAllocs nodeID) w')) =
    elems (fst (result (ProposedAllocs nodeID) w)) ++ more.
Proof.
  intros Hq Hq' Hup Hadd.
  rewrite (ProposedAllocs_success _ _ _ Hq), (ProposedAllocs_success _ _ _ Hq').
  simpl. unfold spec_projection. by rewrite Hadd, Hup, app_assoc.
Qed.

Lemma perform_keeps_projection (n : string) (c : call) (w : World) :
  ¬ touches_node n c →
  result (ProposedAllocs n) (run (perform c) w) = result (ProposedAllocs n) w.
Proof.
  intros Hc.
  assert (Hsame : ∀ w', state (ctx w') = state (ctx w) →
            NodeUpdate (plan (ctx w')) !!! n = NodeUpdate (plan (ctx w)) !!! n →
            NodeAllocation (plan (ctx w')) !!! n = NodeAllocation (plan (ctx w)) !!! n →
            result (ProposedAllocs n) w' = result (ProposedAllocs n) w).
  { intros w' Hs Hup Hadd. unfold result, ProposedAllocs, bind, gets, ret. simpl.
    rewrite Hs, Hup, Hadd.
    by destruct (AllocsByNode (state (ctx w)) n) as [x [msg|]]. }
  destruct c; simpl in Hc.
  - by apply Hsame.
  - by destruct Hc.
  - change (run (perform (CallProposedAllocs nodeID)) w)
      with (run (ProposedAllocs nodeID;; ret tt) w).
    apply Hsame; unfold_calls; by case_query w nodeID.
  - apply Hsame; unfold_calls; by destruct (reCache (cache (ctx w))).
  - apply Hsame; unfold_calls; by destruct (constraintCache (cache (ctx w))).
  - apply Hsame; [done| |done]. unfold_calls. by rewrite lookup_total_insert_ne.
  - apply Hsame; [done|done|]. unfold_calls. by rewrite lookup_total_insert_ne.
  - by apply Hsame.
  - by apply Hsame.
Qed.

(** X3. The projection of a node only moves when the state view is
    replaced or a decision is recorded for that very node: resets, cache
    calls, cache writes, other projections and decisions for other nodes,
    in any number and order, leave it as it is. *)
Theorem projection_stable (n : string) (cs : list call) (w : World) :
  Forall (λ c, ¬ touches_node n c) cs →
  result (ProposedAllocs n) (perform_all cs w) = result (ProposedAllocs n) w.
Proof.
  intros Hcs. revert w. induction Hcs as [|c cs Hc _ IH]; intros w; [done|].
  simpl. rewrite IH. by apply perform_keeps_projection.
Qed.

(** ** SetState *)

(** X4. SetState replaces the state view and nothing else.  The accessor
    returns the new view, a second SetState overrides the first, and the
    next projection is the one of any world that has the new view and the
    same plan: the old view plays no part in it. *)
Theorem SetState_switches_view (s : State) (w : World) :
  let w1 := run (SetState s) w in
  result EvalContext_State w1 = s ∧
  plan (ctx w1) = plan (ctx w) ∧
  metrics (ctx w1) = metrics (ctx w) ∧
  logger (ctx w1) = logger (ctx w) ∧
  cache (ctx w1) = cache (ctx w) ∧
  heap w1 = heap w ∧
  (∀ s', run (SetState s') w1 = run (SetState s') w) ∧
  (∀ nodeID w', state (ctx w') = s → plan (ctx w') = plan (ctx w) →
     result (ProposedAllocs nodeID) w1 = result (ProposedAllocs nodeID) w').
Proof.
  intros w1. subst w1. repeat split.
  intros nodeID w' Hs Hp. unfold result, ProposedAllocs, bind, gets, ret. simpl.
  rewrite Hs, Hp.
  by destruct (AllocsByNode s nodeID) as [x [msg|]].
Qed.

(** ** What the calls leave in the context *)

Lemma perform_keeps_logger (c : call) (w : World) :
  logger (ctx (run (perform c) w)) = logger (ctx w).
Proof.
  destruct c; unfold_calls; try done.
  - by case_query w nodeID.
  - by destruct (reCache (cache (ctx w))).
  - by destruct (constraintCache (cache (ctx w))).
Qed.

Lemma perform_state (c : call) (w : World) :
  state (ctx (run (perform c) w)) = last_state [c] (state (ctx w)).
Proof.
  destruct c; unfold_calls; try done.
  - by case_query w nodeID.
  - by destruct (reCache (cache (ctx w))).
  - by destruct (constraintCache (cache (ctx w))).
Qed.

Lemma perform_keeps_plan (c : call) (w : World) :
  ¬ records_decision c →
  plan (ctx (run (perform c) w)) = plan (ctx w).
Proof.
  intros Hc. destruct c; unfold_calls; try done.
  - by case_query w nodeID.
  - by destruct (reCache (cache (ctx w))).
  - by destruct (constraintCache (cache (ctx w))).
Qed.

(** X5. The context never replaces its logger, replaces its state view
    only in SetState, and never writes its plan: after any calls the
    Logger accessor returns the logger the context started with, the State
    accessor the view of the last SetState (the first one when there was
    none), and, when no decision was recorded through the plan, the Plan
    accessor the plan as it was.  The accessors themselves change
    nothing. *)
Theorem accessors_after_calls (cs : list call) (w : World) :
  let w' := perform_all cs w in
  result EvalContext_Logger w' = logger (ctx w) ∧
  result EvalContext_State w' = last_state cs (state (ctx w)) ∧
  (Forall (λ c, ¬ records_decision c) cs →
   result EvalContext_Plan w' = plan (ctx w)) ∧
  run EvalContext_Logger w' = w' ∧
  run EvalContext_State w' = w' ∧
  run EvalContext_Plan w' = w' ∧
  run EvalContext_Metrics w' = w'.
Proof.
  intros w'. subst w'. repeat split.
  - revert w. induction cs as [|c cs IH]; intros w; [done|].
    simpl. change (logger (ctx (perform_all cs (run (perform c) w))) = logger (ctx w)).
    rewrite <- (perform_keeps_logger c w). apply IH.
  - revert w. induction cs as [|c cs IH]; intros w; [done|].
    change (state (ctx (perform_all cs (run (perform c) w))) =
            last_state cs (last_state [c] (state (ctx w)))).
    rewrite <- perform_state. apply IH.
  - intros Hcs. revert w. induction Hcs as [|c cs Hc _ IH]; intros w; [done|].
    change (plan (ctx (perform_all cs (run (perform c) w))) = plan (ctx w)).
    rewrite <- (perform_keeps_plan c w Hc). apply IH.
Qed.

(** X6. A context fresh from NewEvalContext reports what it was built
    from and zeroed metrics, and its caches hold nothing: whatever map
    objects exist already, the first RegexpCache and the first
    ConstraintCache call each return a new map in which no key is
    present. *)
Theorem NewEvalContext_starts_empty (s : State) (p : Plan) (log : Logger)
    (h : Heap) (k : string) :
  let w := {| ctx := NewEvalContext s p log; heap := h |} in
  result EvalContext_State w = s ∧
  result EvalContext_Plan w = p ∧
  result EvalContext_Logger w = log ∧
  result EvalContext_Metrics w = new_AllocMetric ∧
  result RegexpCache w = Some (length (regexpMaps h)) ∧
  result ConstraintCache w = Some (length (constraintMaps h)) ∧
  regexp_at (result RegexpCache w) k (run RegexpCache w) = None ∧
  constraint_at (result ConstraintCache w) k (run ConstraintCache w) = None.
Proof.
  intros w. subst w. repeat split.
  - unfold regexp_at. unfold_calls.
    by rewrite lookup_app_r, Nat.sub_diag.
  - unfold constraint_at. unfold_calls.
    by rewrite lookup_app_r, Nat.sub_diag.
Qed.

(** ** The two caches side by side *)

(** X7. The two caches do not get in each other's way: making or fetching
    one never changes what the other call returns, and the two calls can
    be made in either order with the same world as the outcome. *)
Theorem cache_calls_commute (w : World) :
  result RegexpCache (run ConstraintCache w) = result RegexpCache w ∧
  result ConstraintCache (run RegexpCache w) = result ConstraintCache w ∧
  run RegexpCache (run ConstraintCache w) = run ConstraintCache (run RegexpCache w).
Proof.
  unfold_calls.
  destruct (reCache (cache (ctx w))) as [l|] eqn:Hre;
    destruct (constraintCache (cache (ctx w))) as [l'|] eqn:Hcon;
    simpl; rewrite ?Hre, ?Hcon; simpl; rewrite ?Hre, ?Hcon; done.
Qed.

(** X8. A cache call writes at most its own field and adds at most one
    map.  RegexpCache leaves the state view, the plan, the logger, the
    metrics, the constraint field and the constraint maps alone; the maps
    that existed keep their place and content; and when the field was
    already set the world is unchanged.  The same holds for
    ConstraintCache with the roles exchanged. *)
Theorem cache_call_frame (w : World) :
  (let w1 := run RegexpCache w in
   state (ctx w1) = state (ctx w) ∧ plan (ctx w1) = plan (ctx w) ∧
   logger (ctx w1) = logger (ctx w) ∧ metrics (ctx w1) = metrics (ctx w) ∧
   constraintCache (cache (ctx w1)) = constraintCache (cache (ctx w)) ∧
   constraintMaps (heap w1) = constraintMaps (heap w) ∧
   regexpMaps (heap w) `prefix_of` regexpMaps (heap w1) ∧
   length (regexpMaps (heap w1)) ≤ S (length (regexpMaps (heap w))) ∧
   (is_Some (reCache (cache (ctx w))) → w1 = w)) ∧
  (let w2 := run ConstraintCache w in
   state (ctx w2) = state (ctx w) ∧ plan (ctx w2) = plan (ctx w) ∧
   logger (ctx w2) = logger (ctx w) ∧ metrics (ctx w2) = metrics (ctx w) ∧
   reCache (cache (ctx w2)) = reCache (cache (ctx w)) ∧
   regexpMaps (heap w2) = regexpMaps (heap w) ∧
   constraintMaps (heap w) `prefix_of` constraintMaps (heap w2) ∧
   length (constraintMaps (heap w2)) ≤ S (length (constraintMaps (heap w))) ∧
   (is_Some (constraintCache (cache (ctx w))) → w2 = w)).
Proof.
  split.
  - destruct (reCache (cache (ctx w))) as [l|] eqn:Hc.
    + unfold run. rewrite (RegexpCache_set _ _ Hc). simpl.
      repeat split; try done. lia.
    + destruct (RegexpCache_unset _ Hc) as (_ & _ & Hh). simpl.
      rewrite Hh. unfold_calls. rewrite Hc. simpl.
      repeat split; try done.
      * by apply prefix_app_r.
      * rewrite length_app. simpl. lia.
  - destruct (constraintCache (cache (ctx w))) as [l|] eqn:Hc.
    + unfold run. rewrite (ConstraintCache_set _ _ Hc). simpl.
      repeat split; try done. lia.
    + destruct (ConstraintCache_unset _ Hc) as (_ & _ & Hh). simpl.
      rewrite Hh. unfold_calls. rewrite Hc. simpl.
      repeat split; try done.
      * by apply prefix_app_r.
      * rewrite length_app. simpl. lia.
Qed.

(** ** Reset among the other calls *)

(** X9. Reset can be moved across any other call: resetting before or
    after a state change, a projection, a cache call, a cache write or a
    recorded decision gives the same world, since none of them reads or
    writes the metrics field. *)
Theorem Reset_commutes (c : call) (w : World) :
  run Reset (run (perform c) w) = run (perform c) (run Reset w).
Proof.
  destruct c; unfold_calls; try done.
  - by case_query w nodeID.
  - by destruct (reCache (cache (ctx w))).
  - by destruct (constraintCache (cache (ctx w))).
Qed.

(** ** Placements against evictions *)

(** X10. Evictions never reach the placements.  When the query succeeds,
    the placements the plan holds for the node close the projection, all
    of them and in their order, whatever the plan evicts for the node:
    also a placement that carries the identity of an evicted allocation
    is there. *)
Theorem placements_close_projection (nodeID : string) (w : World)
    (s : slice Allocation) :
  AllocsByNode (state (ctx w)) nodeID = (s, None) →
  elems (NodeAllocation (plan (ctx w)) !!! nodeID)
    `suffix_of` elems (fst (result (ProposedAllocs nodeID) w)).
Proof.
  intros Hq. rewrite (ProposedAllocs_success _ _ _ Hq). simpl.
  unfold spec_projection. by apply suffix_app_r.
Qed.

End scheduler.

(** ** The properties at concrete worlds *)

(** The scenario of C1 with a1, a2 and a3 as section 8 names them. *)
Lemma scenario_projection_witness :
  let w := @scenario_world unit unit unit () in
  let w1 := run (Plan_recordPlacement "N" alloc_a3) (run (ProposedAllocs "N") w) in
  let w2 := run (Plan_recordEviction "N" alloc_a1) (run (ProposedAllocs "N") w1) in
  result (ProposedAllocs "N") w = (Slice [alloc_a1], None) ∧
  result (ProposedAllocs "N") w1 = (Slice [alloc_a1; alloc_a3], None) ∧
  result (ProposedAllocs "N") w2 = (Slice [alloc_a3], None).
Proof.
  apply (scenario_projection "N" alloc_a1 alloc_a2 alloc_a3
           (@scenario_world unit unit unit ())); reflexivity.
Defined.

(** C2 as stated fails: a2 is complete, the plan places it on N, and the
    projection of N holds it. *)
Lemma terminal_placement_projected :
  let w := run (Plan_recordPlacement "N" alloc_a2) (@scenario_world unit unit unit ()) in
  TerminalStatus alloc_a2 = true ∧
  result (ProposedAllocs "N") w = (Slice [alloc_a1; alloc_a2], None) ∧
  alloc_a2 ∈ elems (fst (result (ProposedAllocs "N") w)).
Proof.
  split; [reflexivity|]. split; [reflexivity|].
  vm_compute. apply list_elem_of_further, list_elem_of_here.
Defined.

Lemma terminal_only_when_placed_witness :
  let w := run (Plan_recordPlacement "N" alloc_a2) (@scenario_world unit unit unit ()) in
  alloc_a2 ∈ elems (NodeAllocation (plan (ctx w)) !!! "N").
Proof.
  apply (terminal_only_when_placed "N"
           (run (Plan_recordPlacement "N" alloc_a2) (@scenario_world unit unit unit ()))
           alloc_a2).
  - reflexivity.
  - vm_compute. apply list_elem_of_further, list_elem_of_here.
Defined.

Lemma ProposedAllocs_returns_state_error_witness :
  result (ProposedAllocs "N") (@failing_world unit unit unit ()) =
  (Nil, Some "StateUnavailable").
Proof.
  apply (ProposedAllocs_returns_state_error "N" (@failing_world unit unit unit ())
           Nil "StateUnavailable").
  reflexivity.
Defined.

(** Node M has no allocation and the plan has no entry for it. *)
Lemma ProposedAllocs_never_nil_witness :
  result (ProposedAllocs "M") (@scenario_world unit unit unit ()) = (Slice [], None).
Proof.
  destruct (ProposedAllocs_never_nil "M" (@scenario_world unit unit unit ()) Nil eq_refl)
    as (_ & _ & Hempty).
  apply Hempty; reflexivity.
Defined.

Lemma evict_then_place_witness :
  let w := run (Plan_recordPlacement "N" alloc_a3)
             (run (Plan_recordEviction "N" alloc_a1)
                (@two_running_world unit unit unit ())) in
  ∃ r, result (ProposedAllocs "N") w = (Slice r, None) ∧
       r ≡ₚ [alloc_b; alloc_a3] ∧
       ∀ x, x ∈ r ↔ x = alloc_b ∨ x = alloc_a3.
Proof.
  apply (evict_then_place "N" alloc_a1 alloc_b alloc_a3
           (@two_running_world unit unit unit ()) (Slice [alloc_a1; alloc_b]));
    try reflexivity.
  discriminate.
Defined.

(** Reset between the recording of a3 and the projection. *)
Lemma Reset_only_metrics_witness :
  alloc_a3 ∈ elems (fst (result (ProposedAllocs "N")
                           (run Reset (run (Plan_recordPlacement "N" alloc_a3)
                                         (@scenario_world unit unit unit ()))))).
Proof.
  destruct (Reset_only_metrics (@scenario_world unit unit unit ()))
    as (_ & _ & _ & _ & _ & _ & _ & Hplaced & _).
  apply (Hplaced "N" alloc_a3 (Slice [alloc_a1; alloc_a2])). reflexivity.
Defined.

(** a1 and b belong to the same task; evicting a1 leaves b in place. *)
Lemma eviction_by_identity_witness :
  Task alloc_b = Task alloc_a1 ∧
  alloc_b ∈ elems (fst (result (ProposedAllocs "N")
                          (run (Plan_recordEviction "N" alloc_a1)
                             (@two_running_world unit unit unit ())))).
Proof.
  split; [reflexivity|].
  destruct (eviction_by_identity "N"
              (run (Plan_recordEviction "N" alloc_a1)
                 (@two_running_world unit unit unit ()))
              (Slice [alloc_a1; alloc_b]) eq_refl)
    as (_ & Hstays & _).
  apply (Hstays alloc_b alloc_a1).
  - apply list_elem_of_further, list_elem_of_here.
  - reflexivity.
  - vm_compute. apply list_elem_of_here.
  - reflexivity.
  - vm_compute. intros H. apply list_elem_of_singleton in H. discriminate.
Defined.

(** A pattern stored through the first map is read through the map of a
    later call, after a reset, a projection and writes to other keys. *)
Lemma cache_maps_made_once_witness :
  let w := @new_world string string unit scenario_state empty_plan () in
  let cs := [CallReset; CallProposedAllocs "N"; CallConstraintCache;
             CallStoreRegexp 0 "^b" "compiled ^b"; CallRegexpCache] in
  let w' := perform_all cs (run (store_regexp 0 "^a" "compiled ^a") (run RegexpCache w)) in
  result RegexpCache w = Some 0 ∧
  regexp_at (result RegexpCache w') "^a" (run RegexpCache w') = Some "compiled ^a".
Proof.
  destruct (cache_maps_made_once
              (@new_world string string unit scenario_state empty_plan ()))
    as [(l & Hl & _ & _ & Hread) _].
  injection Hl as <-. split; [reflexivity|].
  apply Hread; [by split|]. repeat constructor; simpl; try tauto.
  intros [_ H]. discriminate.
Defined.

(** A nil eviction entry and an empty placement entry for N, against no
    entry at all. *)
Lemma ProposedAllocs_read_only_witness :
  let w := @scenario_world unit unit unit () in
  run (ProposedAllocs "N") w = w ∧
  result (ProposedAllocs "N")
    (set_plan (with_entries "N" Nil (Slice []) empty_plan) w) =
  result (ProposedAllocs "N") (set_plan (without_entries "N" empty_plan) w).
Proof.
  destruct (ProposedAllocs_read_only "N" (@scenario_world unit unit unit ()))
    as [Hframe Hsame].
  split; [exact Hframe|]. apply (Hsame Nil (Slice [])); reflexivity.
Defined.

(** ** The further properties at concrete worlds *)

(** A decision for node M, a reset and a cache call do not show in the
    projection of N. *)
Lemma projection_reads_node_entries_witness :
  let w := @scenario_world unit unit unit () in
  let w' := perform_all [CallRecordPlacement "M" alloc_b; CallReset; CallRegexpCache] w in
  result (ProposedAllocs "N") w = result (ProposedAllocs "N") w'.
Proof.
  apply (projection_reads_node_entries "N" (@scenario_world unit unit unit ())
           (perform_all [CallRecordPlacement "M" alloc_b; CallReset; CallRegexpCache]
              (@scenario_world unit unit unit ())));
    reflexivity.
Defined.

Lemma more_placements_extend_projection_witness :
  let w := run (Plan_recordPlacement "N" alloc_a3) (@scenario_world unit unit unit ()) in
  let w' := run (Plan_recordPlacement "N" alloc_b) w in
  elems (fst (result (ProposedAllocs "N") w')) =
  elems (fst (result (ProposedAllocs "N") w)) ++ [alloc_b].
Proof.
  apply (more_placements_extend_projection "N"
           (run (Plan_recordPlacement "N" alloc_a3) (@scenario_world unit unit unit ()))
           (run (Plan_recordPlacement "N" alloc_b)
              (run (Plan_recordPlacement "N" alloc_a3)
                 (@scenario_world unit unit unit ())))
           (Slice [alloc_a1; alloc_a2]) [alloc_b]);
    reflexivity.
Defined.

Lemma projection_stable_witness :
  let w := run (Plan_recordEviction "N" alloc_a1) (@scenario_world string string unit ()) in
  let cs := [CallReset; CallRecordPlacement "M" alloc_b; CallRegexpCache;
             CallStoreRegexp 0 "^a" "compiled ^a"; CallProposedAllocs "M";
             CallRecordEviction "M" alloc_a1; CallConstraintCache] in
  result (ProposedAllocs "N") (perform_all cs w) = result (ProposedAllocs "N") w.
Proof.
  apply (projection_stable "N").
  repeat constructor; simpl; try tauto; discriminate.
Defined.

(** The view fails after SetState, whatever the old view answered. *)
Lemma SetState_switches_view_witness :
  result (ProposedAllocs "N")
    (run (SetState failing_state) (@scenario_world unit unit unit ())) =
  result (ProposedAllocs "N") (@failing_world unit unit unit ()).
Proof.
  destruct (SetState_switches_view failing_state (@scenario_world unit unit unit ()))
    as (_ & _ & _ & _ & _ & _ & _ & Hview).
  apply Hview; reflexivity.
Defined.

Lemma accessors_after_calls_witness :
  let cs := [CallReset; CallSetState failing_state; CallRegexpCache;
             CallProposedAllocs "N"; CallSetState two_running_state] in
  let w' := perform_all cs (@scenario_world unit unit unit ()) in
  result EvalContext_State w' = two_running_state ∧
  result EvalContext_Plan w' = empty_plan.
Proof.
  destruct (accessors_after_calls
              [CallReset; CallSetState failing_state; CallRegexpCache;
               CallProposedAllocs "N"; CallSetState two_running_state]
              (@scenario_world unit unit unit ()))
    as (_ & Hstate & Hplan & _).
  split; [exact Hstate|]. apply Hplan. repeat constructor; simpl; tauto.
Defined.

(** A second RegexpCache call finds the field set and changes nothing. *)
Lemma cache_call_frame_witness :
  let w := run RegexpCache (@scenario_world unit unit unit ()) in
  run RegexpCache w = w.
Proof.
  destruct (cache_call_frame (run RegexpCache (@scenario_world unit unit unit ())))
    as [(_ & _ & _ & _ & _ & _ & _ & _ & Hset) _].
  apply Hset. by eexists.
Defined.

(** a1 is evicted and a placement with the identity of a1 is recorded: the
    placement closes the projection. *)
Lemma placements_close_projection_witness :
  let w := run (Plan_recordPlacement "N" alloc_a1)
             (run (Plan_recordEviction "N" alloc_a1)
                (@two_running_world unit unit unit ())) in
  [alloc_a1] `suffix_of` elems (fst (result (ProposedAllocs "N") w)).
Proof.
  apply (placements_close_projection "N"
           (run (Plan_recordPlacement "N" alloc_a1)
              (run (Plan_recordEviction "N" alloc_a1)
                 (@two_running_world unit unit unit ())))
           (Slice [alloc_a1; alloc_b])).
  reflexivity.
Defined.
